(** * Cascade runner: identities, jobs, the recipe-to-job graph compiler
      and sub-graph selection

    A shallow embedding of [cascade/runner/job_graph.py] and of
    [Application.sub_graph_to_run] in [cascade/executor/dismodel_main.py].

    Python objects that the code only reads are plain values.  Objects the
    code mutates (the [networkx] graphs) live in a heap and are handled by
    reference, so that two names for one object stay two names for one
    object.  Exceptions are results: a computation is a function from the
    state to an outcome and the state in which it stopped. *)

From stdpp Require Import gmap strings list fin_maps pretty.
From Stdlib Require Import ZArith.

Open Scope string_scope.
Open Scope list_scope.
Open Scope Z_scope.

(** ** Python values and exceptions *)

(** The dynamically typed values that reach the identity constructors and
    the command-line namespace. *)
Inductive pyval :=
| PyNone
| PyInt (z : Z)
| PyStr (s : string).

#[export] Instance pyval_eq_dec : EqDecision pyval.
Proof. solve_decision. Defined.

(** [a == b] on builtin values: values of different builtin types are
    unequal, [None] is equal to itself only. *)
Definition pyval_eqb (a b : pyval) : bool := bool_decide (a = b).

(** [str(x)] on builtin values, as an f-string renders a field. *)
Definition pyval_str (v : pyval) : string :=
  match v with
  | PyNone => "None"
  | PyInt z => pretty z
  | PyStr s => s
  end.

(** An f-string: literal text and replacement fields, each field already
    rendered by [str]; the result is their concatenation. *)
Inductive fpart :=
| Lit (text : string)
| Field (rendered : string).

Definition fstring (parts : list fpart) : string :=
  foldr (λ p rest, match p with Lit s => s +:+ rest | Field s => s +:+ rest end)
        "" parts.

(** What an exception carries: a message, or the dictionary that
    [mock_run] passes to [RuntimeError]. *)
Inductive exn_args :=
| Text (msg : string)
| Mapping (d : gmap string string).

Inductive exn :=
| AssertionError (msg : string)
| RuntimeError (args : exn_args)
| AttributeError (msg : string)
| KeyError
| IndexError.

(** ** Computations with state and exceptions

    A raised exception keeps the state reached so far, as in Python. *)
Definition M (S A : Type) : Type := S → (exn + A) * S.

#[export] Instance M_ret {S} : MRet (M S) := λ A a s, (inr a, s).

#[export] Instance M_bind {S} : MBind (M S) := λ A B k m s,
  match m s with
  | (inr a, s') => k a s'
  | (inl e, s') => (inl e, s')
  end.

Definition raise {S A} (e : exn) : M S A := λ s, (inl e, s).

Definition get {S} : M S S := λ s, (inr s, s).

Definition modify {S} (f : S → S) : M S unit := λ s, (inr tt, f s).

(** A pure computation that may raise, run inside [M]. *)
Definition lift {S A} (r : exn + A) : M S A := λ s, (r, s).

(** [for x in l: body(x)], threading the loop's local variable. *)
Fixpoint foldM {S A B} (body : B → A → M S B) (acc : B) (l : list A) : M S B :=
  match l with
  | [] => mret acc
  | x :: l' => acc' ← body acc x; foldM body acc' l'
  end.

(** A list comprehension whose element expression may raise. *)
Fixpoint mapE {A B} (f : A → exn + B) (l : list A) : exn + list B :=
  match l with
  | [] => inr []
  | x :: l' =>
      match f x with
      | inl e => inl e
      | inr y => match mapE f l' with
                 | inl e => inl e
                 | inr ys => inr (y :: ys)
                 end
      end
  end.

(** [assert cond, msg]. *)
Definition assert_ {S} (cond : bool) (msg : string) : M S unit :=
  if cond then mret tt else raise (AssertionError msg).

(** ** Identity model *)

Definition allowed_sexes : gset string := {[ "male"; "female"; "both" ]}.

(** The two membership assertions of [RecipeIdentifier.__init__]. *)
Definition sex_and_recipe_ok (recipe sex : string) : bool :=
  bool_decide (sex ∈ allowed_sexes) && negb (bool_decide (recipe ∈ allowed_sexes)).

(** A [RecipeIdentifier] object.  Its slots are private and only
    [__init__] writes them, so every object satisfies what [__init__]
    asserted; the record carries that fact. *)
Record RecipeIdentifier := mkRecipeIdentifier {
  _location_id : Z;
  _recipe : string;
  _sex : string;
  _asserted : Is_true (sex_and_recipe_ok _recipe _sex)
}.

(** A [JobIdentifier] object: the slots of its base class and [_name]. *)
Record JobIdentifier := mkJobIdentifier {
  _base : RecipeIdentifier;
  _name : string
}.

(** The objects that can stand on either side of [==] here. *)
Inductive object :=
| Builtin (v : pyval)
| ARecipeIdentifier (r : RecipeIdentifier)
| AJobIdentifier (j : JobIdentifier).

Inductive class := ClsBuiltin | ClsRecipeIdentifier | ClsJobIdentifier.

Definition type_of (o : object) : class :=
  match o with
  | Builtin _ => ClsBuiltin
  | ARecipeIdentifier _ => ClsRecipeIdentifier
  | AJobIdentifier _ => ClsJobIdentifier
  end.

#[export] Instance class_eq_dec : EqDecision class.
Proof. solve_decision. Defined.

(** [issubclass(c, d)]: [JobIdentifier] derives from [RecipeIdentifier]. *)
Definition issubclass (c d : class) : bool :=
  match c, d with
  | ClsBuiltin, ClsBuiltin => true
  | ClsRecipeIdentifier, ClsRecipeIdentifier => true
  | ClsJobIdentifier, ClsJobIdentifier => true
  | ClsJobIdentifier, ClsRecipeIdentifier => true
  | _, _ => false
  end.

(** [isinstance(o, RecipeIdentifier)], with the slots when it holds. *)
Definition as_RecipeIdentifier (o : object) : option RecipeIdentifier :=
  match o with
  | Builtin _ => None
  | ARecipeIdentifier r => Some r
  | AJobIdentifier j => Some (_base j)
  end.

Module RecipeIdentifier.

Definition t := RecipeIdentifier.

(** [isinstance(location_id, int)], [isinstance(recipe, str)]. *)
Definition isinstance_int (v : pyval) : option Z :=
  match v with PyInt z => Some z | _ => None end.
Definition isinstance_str (v : pyval) : option string :=
  match v with PyStr s => Some s | _ => None end.

(** [RecipeIdentifier(location_id, recipe, sex)]: four assertions, then
    the three slots are written. *)
Definition __init__ (location_id recipe sex : pyval) : exn + t :=
  match isinstance_int location_id with
  | None => inl (AssertionError "")
  | Some l =>
    match isinstance_str recipe with
    | None => inl (AssertionError "")
    | Some r =>
      match sex with
      | PyStr s =>
        match decide (Is_true (sex_and_recipe_ok r s)) with
        | left ok => inr (mkRecipeIdentifier l r s ok)
        | right _ => inl (AssertionError "")
        end
      | _ => inl (AssertionError "")
      end
    end
  end.

Definition location_id (self : t) : Z := _location_id self.
Definition recipe (self : t) : string := _recipe self.
Definition sex (self : t) : string := _sex self.

(** [getattr(self, x)] for the three names [__eq__] goes through. *)
Definition getattr (self : t) (x : string) : option pyval :=
  if decide (x = "location_id") then Some (PyInt (location_id self))
  else if decide (x = "recipe") then Some (PyStr (recipe self))
  else if decide (x = "sex") then Some (PyStr (sex self))
  else None.

(** [all(getattr(self, x) == getattr(other, x) for x in names)]. *)
Definition all_equal (self other : t) (names : list string) : bool :=
  forallb (λ x, bool_decide (getattr self x = getattr other x)) names.

(** [RecipeIdentifier.__eq__(self, other)]. *)
Definition __eq__ (self : t) (other : object) : exn + bool :=
  match as_RecipeIdentifier other with
  | None => inr false
  | Some o => inr (all_equal self o ["location_id"; "recipe"; "sex"])
  end.

(** [f"RecipeIdentifier({self.location_id}, {self.recipe}, {self.sex})"]. *)
Definition __repr__ (self : t) : string :=
  fstring [Lit "RecipeIdentifier("; Field (pyval_str (PyInt (location_id self)));
           Lit ", "; Field (pyval_str (PyStr (recipe self)));
           Lit ", "; Field (pyval_str (PyStr (sex self))); Lit ")"].

End RecipeIdentifier.

Module JobIdentifier.

Definition t := JobIdentifier.

(** [JobIdentifier(recipe_identifier, name)] stores the name and runs
    the base class constructor on the three fields read from
    [recipe_identifier]. *)
Definition __init__ (recipe_identifier : RecipeIdentifier) (name : string)
  : exn + t :=
  match RecipeIdentifier.__init__
          (PyInt (RecipeIdentifier.location_id recipe_identifier))
          (PyStr (RecipeIdentifier.recipe recipe_identifier))
          (PyStr (RecipeIdentifier.sex recipe_identifier)) with
  | inl e => inl e
  | inr base => inr (mkJobIdentifier base name)
  end.

Definition location_id (self : t) : Z := _location_id (_base self).
Definition recipe (self : t) : string := _recipe (_base self).
Definition sex (self : t) : string := _sex (_base self).
Definition name (self : t) : string := _name self.

(** [other.name]: only a [JobIdentifier] has the attribute. *)
Definition name_of (other : object) : exn + string :=
  match other with
  | AJobIdentifier j => inr (name j)
  | ARecipeIdentifier _ =>
      inl (AttributeError "'RecipeIdentifier' object has no attribute 'name'")
  | Builtin _ => inl (AttributeError "object has no attribute 'name'")
  end.

(** [RecipeIdentifier.__eq__(self, other) and self.name == other.name]:
    the right operand of [and] is evaluated only when the left is true. *)
Definition __eq__ (self : t) (other : object) : exn + bool :=
  match RecipeIdentifier.__eq__ (_base self) other with
  | inl e => inl e
  | inr false => inr false
  | inr true =>
      match name_of other with
      | inl e => inl e
      | inr n => inr (bool_decide (name self = n))
      end
  end.

(** [f"{self.location_id}_{self.recipe}_{self.sex}_{self.name}"]. *)
Definition __str__ (self : t) : string :=
  fstring [Field (pyval_str (PyInt (location_id self))); Lit "_";
           Field (pyval_str (PyStr (recipe self))); Lit "_";
           Field (pyval_str (PyStr (sex self))); Lit "_";
           Field (pyval_str (PyStr (name self)))].

(** The command-line arguments that would select this job. *)
Definition arguments (self : t) : list string :=
  pyval_str <$> [PyStr "--location-id"; PyInt (location_id self);
                 PyStr "--recipe"; PyStr (recipe self);
                 PyStr "--sex"; PyStr (sex self);
                 PyStr "--name"; PyStr (name self)].

(** [getattr(n, search)] for the four selector names. *)
Definition getattr (self : t) (x : string) : option pyval :=
  if decide (x = "location_id") then Some (PyInt (location_id self))
  else if decide (x = "recipe") then Some (PyStr (recipe self))
  else if decide (x = "sex") then Some (PyStr (sex self))
  else if decide (x = "name") then Some (PyStr (name self))
  else None.

End JobIdentifier.

(** [v.__eq__(w)], by the class of [v].  A builtin value compared with an
    identifier declines, and the identifier's method then answers
    [False]; that answer is given here directly. *)
Definition call___eq__ (v w : object) : exn + bool :=
  match v with
  | Builtin a => inr (match w with Builtin b => pyval_eqb a b | _ => false end)
  | ARecipeIdentifier r => RecipeIdentifier.__eq__ r w
  | AJobIdentifier j => JobIdentifier.__eq__ j w
  end.

(** The expression [v == w].  Python's data model: when the operands have
    different types and the right operand's type is a subclass of the left
    operand's type, the right operand's method is tried first, with the
    operands swapped; otherwise the left operand's method is.  The two
    identifier classes never return [NotImplemented], so between
    identifiers the first call decides. *)
Definition py_eq (v w : object) : exn + bool :=
  if bool_decide (type_of v ≠ type_of w) && issubclass (type_of w) (type_of v)
  then call___eq__ w v
  else call___eq__ v w.

(** Identifiers are compared field by field, so two objects with equal
    slots are the same key of a dictionary. *)
Lemma RecipeIdentifier_eq_intro (a b : RecipeIdentifier) :
  _location_id a = _location_id b → _recipe a = _recipe b → _sex a = _sex b →
  a = b.
Proof.
  destruct a as [l r s ok], b as [l' r' s' ok']; simpl.
  intros -> -> ->. f_equal. apply proof_irrel.
Qed.

#[export] Instance RecipeIdentifier_eq_dec : EqDecision RecipeIdentifier.
Proof.
  intros a b.
  destruct (decide (_location_id a = _location_id b)) as [Hl|Hl];
    [|right; congruence].
  destruct (decide (_recipe a = _recipe b)) as [Hr|Hr]; [|right; congruence].
  destruct (decide (_sex a = _sex b)) as [Hs|Hs]; [|right; congruence].
  left. by apply RecipeIdentifier_eq_intro.
Defined.

#[export] Instance JobIdentifier_eq_dec : EqDecision JobIdentifier.
Proof. solve_decision. Defined.

(** ** Insertion-ordered dictionaries

    A Python [dict] keeps its keys in the order of first insertion; the
    loops below iterate in that order. *)
Section odict.
Context {K V : Type} `{EqDecision K}.

(** [d[k]], [None] standing for [KeyError]. *)
Fixpoint dict_get (k : K) (d : list (K * V)) : option V :=
  match d with
  | [] => None
  | (k', v) :: d' => if decide (k = k') then Some v else dict_get k d'
  end.

(** [d[k] = v]: an existing key keeps its place. *)
Fixpoint dict_set (k : K) (v : V) (d : list (K * V)) : list (K * V) :=
  match d with
  | [] => [(k, v)]
  | (k', v') :: d' =>
      if decide (k = k') then (k', v) :: d' else (k', v') :: dict_set k v d'
  end.

(** [k in d]. *)
Definition dict_contains (k : K) (d : list (K * V)) : bool :=
  bool_decide (k ∈ d.*1).
End odict.

(** ** The [networkx] operations the source calls

    [networkx] is a third-party library; this is its documented behaviour
    for a [DiGraph]: a node dictionary from node to attribute dictionary,
    at most one edge per ordered pair of nodes, and a dictionary of graph
    attributes.  Graphs are mutable objects: they live in a heap and the
    program holds references to them. *)
Module nx.
Section DiGraph.
Context {N A G : Type} `{EqDecision N}.

Record DiGraph := mkDiGraph {
  graph : gmap string G;
  _node : list (N * gmap string A);
  _succ : list (N * N)
}.

Definition loc := positive.

Definition nodes (g : DiGraph) : list N := (_node g).*1.
Definition edges (g : DiGraph) : list (N * N) := _succ g.

Definition empty : DiGraph := mkDiGraph ∅ [] [].

(** [G.add_node(n, **attrs)]: a new node gets the attributes, a known
    node has its attribute dictionary updated with them. *)
Definition add_node (n : N) (attrs : gmap string A) (g : DiGraph) : DiGraph :=
  let old := default ∅ (dict_get n (_node g)) in
  mkDiGraph (graph g) (dict_set n (attrs ∪ old) (_node g)) (_succ g).

(** [G.add_nodes_from(pairs)], one [(node, attribute dict)] at a time. *)
Definition add_nodes_from (l : list (N * gmap string A)) (g : DiGraph)
  : DiGraph :=
  foldl (λ g p, add_node p.1 p.2 g) g l.

(** [G.add_edge(u, v)]: both ends become nodes if they are not yet, and
    the edge is recorded once. *)
Definition add_edge (u v : N) (g : DiGraph) : DiGraph :=
  let g1 := if dict_contains u (_node g) then g else add_node u ∅ g in
  let g2 := if dict_contains v (_node g1) then g1 else add_node v ∅ g1 in
  mkDiGraph (graph g2) (_node g2)
    (if bool_decide ((u, v) ∈ _succ g2) then _succ g2 else _succ g2 ++ [(u, v)]).

Definition add_edges_from (l : list (N * N)) (g : DiGraph) : DiGraph :=
  foldl (λ g e, add_edge e.1 e.2 g) g l.

(** [G.graph[key] = value]. *)
Definition graph_setitem (key : string) (value : G) (g : DiGraph) : DiGraph :=
  mkDiGraph (<[key := value]> (graph g)) (_node g) (_succ g).

(** *** Graph objects on the heap *)

(** [nx.DiGraph()]: a new, empty graph object. *)
Definition DiGraph_ : M (gmap loc DiGraph) loc :=
  λ h, let l := fresh (dom h) in (inr l, <[l := empty]> h).

(** A method that mutates the graph referred to by [r]. *)
Definition update (r : loc) (f : DiGraph → DiGraph) : M (gmap loc DiGraph) unit :=
  modify (alter f r).

(** Reading from the graph referred to by [r]. *)
Definition read {B} (r : loc) (f : DiGraph → B) : M (gmap loc DiGraph) B :=
  λ h, (inr (f (default empty (h !! r))), h).

(** *** Sub-graph views

    [nx.subgraph(G, nbunch)] returns a view: it keeps a reference to [G]
    and shows the nodes of [G] that are in [nbunch] and the edges of [G]
    between them.  The library documents that "the graph, edge and node
    attributes are shared with the original graph": the view's [graph]
    attribute is the very dictionary of [G]. *)
Record SubGraph := mkSubGraph {
  _graph : loc;
  _NODE_OK : list N
}.

Definition subgraph (r : loc) (nbunch : list N) : M (gmap loc DiGraph) SubGraph :=
  ns ← read r nodes;
  mret (mkSubGraph r (filter (λ n, n ∈ ns) nbunch)).

Definition view_nodes (h : gmap loc DiGraph) (v : SubGraph) : list N :=
  filter (λ n, n ∈ _NODE_OK v) (nodes (default empty (h !! _graph v))).

Definition view_edges (h : gmap loc DiGraph) (v : SubGraph) : list (N * N) :=
  filter (λ e, e.1 ∈ _NODE_OK v ∧ e.2 ∈ _NODE_OK v)
         (edges (default empty (h !! _graph v))).

Definition view_graph (h : gmap loc DiGraph) (v : SubGraph) : gmap string G :=
  graph (default empty (h !! _graph v)).

(** [view.graph[key] = value] writes into the shared dictionary. *)
Definition view_graph_setitem (v : SubGraph) (key : string) (value : G)
  : M (gmap loc DiGraph) unit :=
  update (_graph v) (graph_setitem key value).
End DiGraph.
Arguments DiGraph : clear implicits.
Arguments SubGraph : clear implicits.
End nx.

(** ** Entities and jobs *)

(** The input and output entities of a job are external collaborators:
    [validate] reports what is missing, [mock] writes a placeholder. *)
Class EntityOps (Entity ExecutionContext World : Type) := {
  validate : Entity → ExecutionContext → World → option string;
  mock : Entity → ExecutionContext → World → World
}.

Module CascadeJob.
Section CascadeJob.
Context {Settings Entity ExecutionContext World : Type}.
Context `{!EntityOps Entity ExecutionContext World}.
Variable number_of_fixed_effect_samples : Settings → Z.

Record t := mk {
  name : string;
  recipe : RecipeIdentifier;
  local_settings : Settings;
  inputs : gmap string Entity;
  outputs : gmap string Entity;
  multiplicity : Z
}.

Definition __init__ (name : string) (recipe_identifier : RecipeIdentifier)
    (local_settings : Settings) : t :=
  mk name recipe_identifier local_settings ∅ ∅
     (if bool_decide (name ≠ "compute_draws_from_parent_fit") then 1
      else number_of_fixed_effect_samples local_settings).

Definition job_identifier (self : t) : exn + JobIdentifier :=
  JobIdentifier.__init__ (recipe self) (name self).

Definition memory_resource (self : t) : Z := 16.
Definition thread_resource (self : t) : Z := 2.

(** The calls made on the collaborators, in order. *)
Inductive call :=
| Validate (entity : Entity) (execution_context : ExecutionContext)
| Mock (entity : Entity) (execution_context : ExecutionContext).

Record state := mkState {
  world : World;
  calls : list call
}.

Definition call_validate (entity : Entity) (c : ExecutionContext)
  : M state (option string) :=
  λ s, (inr (validate entity c (world s)),
        mkState (world s) (calls s ++ [Validate entity c])).

Definition call_mock (entity : Entity) (c : ExecutionContext) : M state unit :=
  λ s, (inr tt, mkState (mock entity c (world s)) (calls s ++ [Mock entity c])).

Definition entity_missing (execution_context : ExecutionContext)
    (inputs_outputs : gmap string Entity) : M state (gmap string string) :=
  foldM (λ not_ready item,
           validation ← call_validate item.2 execution_context;
           mret (match validation with
                 | Some v => <[item.1 := v]> not_ready
                 | None => not_ready
                 end))
        ∅ (map_to_list inputs_outputs).

Definition input_missing (self : t) (execution_context : ExecutionContext) :=
  entity_missing execution_context (inputs self).

Definition output_missing (self : t) (execution_context : ExecutionContext) :=
  entity_missing execution_context (outputs self).

Definition mock_run (self : t) (execution_context : ExecutionContext)
    (check_inputs : bool) : M state unit :=
  (if check_inputs then
     missing ← input_missing self execution_context;
     if bool_decide (missing ≠ ∅)
     then raise (RuntimeError (Mapping missing))
     else mret tt
   else mret tt);;
  foldM (λ _ output, call_mock output execution_context) tt
        (map_to_list (outputs self)).*2.
End CascadeJob.
Arguments t : clear implicits.
Arguments call : clear implicits.
Arguments state : clear implicits.
End CascadeJob.

(** ** Recipe graphs and job graphs *)

(** The recipe graph is built upstream and only read here: its nodes in
    iteration order, each with the [job_list] attribute, its edges, and
    the graph attribute [root]. *)
Module RecipeGraph.
Section RecipeGraph.
Context {Settings Entity : Type}.

Record t := mk {
  nodes : list (RecipeIdentifier * list (CascadeJob.t Settings Entity));
  edges : list (RecipeIdentifier * RecipeIdentifier);
  graph_root : RecipeIdentifier
}.

(** What [networkx] guarantees of any graph: a node occurs once in the
    node dictionary and every edge joins two nodes. *)
Definition is_graph (g : t) : Prop :=
  NoDup (nodes g).*1 ∧
  ∀ e, e ∈ edges g → e.1 ∈ (nodes g).*1 ∧ e.2 ∈ (nodes g).*1.
End RecipeGraph.
Arguments t : clear implicits.
End RecipeGraph.

(** The values stored under the graph attributes of a job graph. *)
Inductive graph_attr (ExecutionContext : Type) :=
| Root (job_id : JobIdentifier)
| Context_ (execution_context : ExecutionContext).
Arguments Root {_} _.
Arguments Context_ {_} _.

(** A job graph: nodes are job identifiers, each annotated with its job. *)
Abbreviation JobGraph Settings Entity ExecutionContext :=
  (nx.DiGraph JobIdentifier (CascadeJob.t Settings Entity)
              (graph_attr ExecutionContext)).

(** The heap of graph objects. *)
Abbreviation Heap Settings Entity ExecutionContext :=
  (gmap nx.loc (JobGraph Settings Entity ExecutionContext)).

Section compiler.
Context {Settings Entity ExecutionContext : Type}.

Abbreviation Job := (CascadeJob.t Settings Entity).

(** [l[0]] and [l[-1]]. *)
Definition first_item {V} (l : list V) : exn + V :=
  match head l with Some x => inr x | None => inl IndexError end.
Definition last_item {V} (l : list V) : exn + V :=
  match last l with Some x => inr x | None => inl IndexError end.

(** [d[key]] on a dictionary with string keys. *)
Definition getitem {V} (d : gmap string V) (key : string) : exn + V :=
  match d !! key with Some v => inr v | None => inl KeyError end.

(** [(recipe_edges[start]["output"], recipe_edges[finish]["input"])]. *)
Definition cross_edge
    (recipe_edges : list (RecipeIdentifier * gmap string JobIdentifier))
    (e : RecipeIdentifier * RecipeIdentifier)
  : exn + (JobIdentifier * JobIdentifier) :=
  match dict_get e.1 recipe_edges with
  | None => inl KeyError
  | Some s =>
    match getitem s "output" with
    | inl x => inl x
    | inr out =>
      match dict_get e.2 recipe_edges with
      | None => inl KeyError
      | Some f =>
        match getitem f "input" with
        | inl x => inl x
        | inr inp => inr (out, inp)
        end
      end
    end
  end.

(** The body of the loop over the recipe nodes; [recipe_edges] is the
    loop's local dictionary and [job_graph] the graph being built. *)
Definition compile_recipe (recipe_graph : RecipeGraph.t Settings Entity)
    (job_graph : nx.loc)
    (recipe_edges : list (RecipeIdentifier * gmap string JobIdentifier))
    (node : RecipeIdentifier * list Job)
  : M (Heap Settings Entity ExecutionContext)
      (list (RecipeIdentifier * gmap string JobIdentifier)) :=
  let copy_identifier := node.1 in
  let job_list := node.2 in
  if bool_decide (length job_list < 1)%nat then
    raise (RuntimeError (Text
      (fstring [Lit "Recipe ";
                Field (RecipeIdentifier.__repr__ copy_identifier);
                Lit " doesn't have any sub-jobs."])))
  else
    job_ids ← lift (mapE CascadeJob.job_identifier job_list);
    nx.update job_graph
      (nx.add_nodes_from
         (zip job_ids ((λ add_job : Job, {[ "job" := add_job ]}) <$> job_list)));;
    nx.update job_graph
      (nx.add_edges_from (zip (removelast job_ids) (tail job_ids)));;
    first ← lift (first_item job_ids);
    final ← lift (last_item job_ids);
    let recipe_edges :=
      dict_set copy_identifier {[ "input" := first; "output" := final ]}
               recipe_edges in
    is_root ← lift (py_eq (ARecipeIdentifier copy_identifier)
                          (ARecipeIdentifier (RecipeGraph.graph_root recipe_graph)));
    (if is_root : bool
     then nx.update job_graph (nx.graph_setitem "root" (Root first))
     else mret tt);;
    mret recipe_edges.

Definition recipe_graph_to_job_graph (recipe_graph : RecipeGraph.t Settings Entity)
  : M (Heap Settings Entity ExecutionContext) nx.loc :=
  job_graph ← nx.DiGraph_;
  recipe_edges ← foldM (compile_recipe recipe_graph job_graph) []
                       (RecipeGraph.nodes recipe_graph);
  has_root ← nx.read job_graph
               (λ g, bool_decide (is_Some (nx.graph g !! "root")));
  assert_ has_root "Could not find a root node for the graph";;
  cross ← lift (mapE (cross_edge recipe_edges) (RecipeGraph.edges recipe_graph));
  nx.update job_graph (nx.add_edges_from cross);;
  mret job_graph.
End compiler.

(** ** Sub-graph selection *)

Module Application.
Section Application.
Context {Locations Settings Entity ExecutionContext : Type}.

(** [cascade.executor.job_definitions] is not part of the sources at
    hand; the function that builds the job graph is a parameter. *)
Variable job_graph_from_settings :
  Locations → Settings → gmap string pyval →
  M (Heap Settings Entity ExecutionContext) nx.loc.

Record t := mk {
  locations : Locations;
  settings : Settings;
  execution_context : ExecutionContext
}.

Definition graph_of_jobs (self : t) (args : gmap string pyval) :=
  job_graph_from_settings (locations self) (settings self) args.

(** [getattr(n, search) == getattr(args, search)]. *)
Definition attribute_equal (args : gmap string pyval) (search : string)
    (n : JobIdentifier) : bool :=
  match JobIdentifier.getattr n search, args !! search with
  | Some a, Some b => pyval_eqb a b
  | _, _ => false
  end.

(** The loop over the four selector names, narrowing [nodes]. *)
Definition narrow (args : gmap string pyval) (nodes : list JobIdentifier)
    (search : string) : list JobIdentifier :=
  if bool_decide (is_Some (args !! search))
  then filter (λ n, attribute_equal args search n) nodes
  else nodes.

Definition sub_graph_to_run (self : t) (args : gmap string pyval)
  : M (Heap Settings Entity ExecutionContext)
      (nx.SubGraph JobIdentifier) :=
  job_graph ← graph_of_jobs self args;
  nodes ← nx.read job_graph nx.nodes;
  let nodes := foldl (narrow args) nodes ["location_id"; "recipe"; "sex"; "name"] in
  sub_graph ← nx.subgraph job_graph nodes;
  nx.view_graph_setitem sub_graph "execution_context"
    (Context_ (execution_context self));;
  mret sub_graph.
End Application.
Arguments t : clear implicits.
End Application.

(** ** Notions used to state the properties *)

(** The three sex tokens, as values. *)
Definition is_sex_token (v : pyval) : Prop :=
  v = PyStr "male" ∨ v = PyStr "female" ∨ v = PyStr "both".

(** One turn of the loop of [entity_missing], without the call log. *)
Definition record_missing {Entity ExecutionContext World : Type}
    `{!EntityOps Entity ExecutionContext World}
    (c : ExecutionContext) (w : World) (not_ready : gmap string string)
    (item : string * Entity) : gmap string string :=
  match validate item.2 c w with
  | Some v => <[item.1 := v]> not_ready
  | None => not_ready
  end.

(** ** What one turn of the compiler's loop does

    The loop body of [recipe_graph_to_job_graph], read as a function on
    the graph under construction and on the local dictionary. *)
Section loop_effect.
Context {Settings Entity ExecutionContext : Type}.

(** The value of the property [job.job_identifier]. *)
Definition identifier (job : CascadeJob.t Settings Entity) : JobIdentifier :=
  mkJobIdentifier (CascadeJob.recipe job) (CascadeJob.name job).

Definition identifiers (job_list : list (CascadeJob.t Settings Entity))
  : list JobIdentifier :=
  identifier <$> job_list.

(** [u] is immediately followed by [v] in [l]. *)
Definition consecutive {X} (l : list X) (u v : X) : Prop :=
  ∃ i : nat, l !! i = Some u ∧ l !! S i = Some v.

Definition add_recipe (recipe_graph : RecipeGraph.t Settings Entity)
    (node : RecipeIdentifier * list (CascadeJob.t Settings Entity))
    (g : JobGraph Settings Entity ExecutionContext)
  : JobGraph Settings Entity ExecutionContext :=
  let job_ids := identifiers node.2 in
  let g1 :=
    nx.add_nodes_from
      (zip job_ids ((λ add_job, {[ "job" := add_job ]}) <$> node.2)) g in
  let g2 := nx.add_edges_from (zip (removelast job_ids) (tail job_ids)) g1 in
  match head job_ids with
  | Some first =>
      if bool_decide (node.1 = RecipeGraph.graph_root recipe_graph)
      then nx.graph_setitem "root" (Root first) g2
      else g2
  | None => g2
  end.

Definition note_boundary
    (recipe_edges : list (RecipeIdentifier * gmap string JobIdentifier))
    (node : RecipeIdentifier * list (CascadeJob.t Settings Entity))
  : list (RecipeIdentifier * gmap string JobIdentifier) :=
  match head (identifiers node.2), last (identifiers node.2) with
  | Some first, Some final =>
      dict_set node.1 {[ "input" := first; "output" := final ]} recipe_edges
  | _, _ => recipe_edges
  end.

(** The graph after the loop has gone through the recipes [l]. *)
Definition add_recipes (recipe_graph : RecipeGraph.t Settings Entity)
    (l : list (RecipeIdentifier * list (CascadeJob.t Settings Entity)))
    (g : JobGraph Settings Entity ExecutionContext)
  : JobGraph Settings Entity ExecutionContext :=
  foldl (λ g node, add_recipe recipe_graph node g) g l.

(** [y] is the pair (last job of the source, first job of the
    destination) of the recipe edge [e]. *)
Definition crosses (recipe_graph : RecipeGraph.t Settings Entity)
    (e : RecipeIdentifier * RecipeIdentifier)
    (y : JobIdentifier * JobIdentifier) : Prop :=
  ∃ source_jobs dest_jobs,
    (e.1, source_jobs) ∈ RecipeGraph.nodes recipe_graph
    ∧ (e.2, dest_jobs) ∈ RecipeGraph.nodes recipe_graph
    ∧ last (identifiers source_jobs) = Some y.1
    ∧ head (identifiers dest_jobs) = Some y.2.

(** The convention of the data model: a job identifier names one job
    of one recipe in the whole run. *)
Definition distinct_job_identifiers
    (recipe_graph : RecipeGraph.t Settings Entity) : Prop :=
  NoDup (mjoin ((λ node, identifiers node.2) <$> RecipeGraph.nodes recipe_graph)).

(** No recipe depends on itself, as in any acyclic recipe graph. *)
Definition no_self_loop (recipe_graph : RecipeGraph.t Settings Entity) : Prop :=
  ∀ e, e ∈ RecipeGraph.edges recipe_graph → e.1 ≠ e.2.

(** The exception raised for a recipe without jobs. *)
Definition no_sub_jobs (copy_identifier : RecipeIdentifier) : exn :=
  RuntimeError (Text
    (fstring [Lit "Recipe ";
              Field (RecipeIdentifier.__repr__ copy_identifier);
              Lit " doesn't have any sub-jobs."])).
End loop_effect.

(** ** A concrete run

    Entities are files named by their path, the world is the set of files
    present: [validate] looks the file up, [mock] creates it. *)
Module Scenario.

Abbreviation Entity := string.
Abbreviation World := (gset string).

#[export] Instance file_ops : EntityOps Entity unit World := {|
  validate e _ w := if bool_decide (e ∈ w) then None else Some "file missing";
  mock e _ w := {[ e ]} ∪ w
|}.

Definition fit_1 : RecipeIdentifier := mkRecipeIdentifier 1 "fit" "both" I.
Definition fit_2 : RecipeIdentifier := mkRecipeIdentifier 2 "fit" "both" I.

Definition job (name : string) (r : RecipeIdentifier) : CascadeJob.t unit Entity :=
  CascadeJob.__init__ (λ _, 1) name r tt.

Definition A := job "A" fit_1.
Definition B := job "B" fit_1.
Definition C := job "C" fit_2.
Definition D := job "D" fit_2.

Definition id_A := mkJobIdentifier fit_1 "A".
Definition id_B := mkJobIdentifier fit_1 "B".
Definition id_C := mkJobIdentifier fit_2 "C".
Definition id_D := mkJobIdentifier fit_2 "D".

(** Two recipes of two jobs each, the second depending on the first. *)
Definition two_recipes : RecipeGraph.t unit Entity :=
  RecipeGraph.mk [(fit_1, [A; B]); (fit_2, [C; D])] [(fit_1, fit_2)] fit_1.

(** The same graph, the second recipe having lost its jobs. *)
Definition second_recipe_empty : RecipeGraph.t unit Entity :=
  RecipeGraph.mk [(fit_1, [A; B]); (fit_2, [])] [(fit_1, fit_2)] fit_1.

(** A job with one declared input and one declared output. *)
Definition fit_job : CascadeJob.t unit Entity :=
  CascadeJob.mk "fit" fit_1 tt {[ "db_file" := "in.db" ]}
                {[ "fit_file" := "out.db" ]} 1.

(** What [two_recipes] compiles to. *)
Definition compiled : JobGraph unit Entity unit :=
  nx.mkDiGraph {[ "root" := Root id_A ]}
    [(id_A, {[ "job" := A ]}); (id_B, {[ "job" := B ]});
     (id_C, {[ "job" := C ]}); (id_D, {[ "job" := D ]})]
    [(id_A, id_B); (id_C, id_D); (id_B, id_C)].

(** The command line [--location-id 2], as a namespace. *)
Definition location_2 : gmap string pyval := {[ "location_id" := PyInt 2 ]}.

Definition app : Application.t unit unit unit := Application.mk tt tt tt.

(** The job graph provider of the application: compile [two_recipes]. *)
Definition provider (_ _ : unit) (_ : gmap string pyval)
  : M (Heap unit Entity unit) nx.loc :=
  recipe_graph_to_job_graph two_recipes.

End Scenario.

(** * Properties *)

(** ** Running computations *)

Lemma run_bind_inr {S A B} (m : M S A) (k : A → M S B) s a s' :
  m s = (inr a, s') → (m ≫= k) s = k a s'.
Proof. intros E. unfold mbind, M_bind. by rewrite E. Qed.

Lemma run_bind_inl {S A B} (m : M S A) (k : A → M S B) s e s' :
  m s = (inl e, s') → (m ≫= k) s = (inl e, s').
Proof. intros E. unfold mbind, M_bind. by rewrite E. Qed.

Lemma mapE_total {A B} (f : A → exn + B) (g : A → B) (l : list A) :
  (∀ x, x ∈ l → f x = inr (g x)) → mapE f l = inr (g <$> l).
Proof.
  induction l as [|x l IH]; intros Hf; [done|]. simpl.
  rewrite (Hf x) by left.
  rewrite IH; [done|]. intros y Hy. apply Hf. by right.
Qed.

(** ** Identity model *)

Lemma allowed_sexes_spec (s : string) :
  s ∈ allowed_sexes ↔ is_sex_token (PyStr s).
Proof.
  unfold allowed_sexes, is_sex_token.
  rewrite !elem_of_union, !elem_of_singleton.
  split; [intros [[->| ->]| ->]|intros [H|[H|H]]; inversion H]; tauto.
Qed.

Lemma sex_and_recipe_ok_spec (recipe sex : string) :
  Is_true (sex_and_recipe_ok recipe sex)
  ↔ is_sex_token (PyStr sex) ∧ ¬ is_sex_token (PyStr recipe).
Proof.
  unfold sex_and_recipe_ok.
  rewrite andb_True, negb_True, !bool_decide_spec, !allowed_sexes_spec.
  done.
Qed.

(** Building an identifier again from the fields of an existing one never
    fails and gives the same identifier. *)
Lemma RecipeIdentifier_init_again (r : RecipeIdentifier) :
  RecipeIdentifier.__init__ (PyInt (RecipeIdentifier.location_id r))
    (PyStr (RecipeIdentifier.recipe r)) (PyStr (RecipeIdentifier.sex r)) = inr r.
Proof.
  unfold RecipeIdentifier.__init__; simpl.
  destruct (decide _) as [ok|bad].
  - f_equal. by apply RecipeIdentifier_eq_intro.
  - destruct bad. apply (_asserted r).
Qed.

Lemma JobIdentifier_init_total (r : RecipeIdentifier) (name : string) :
  JobIdentifier.__init__ r name = inr (mkJobIdentifier r name).
Proof. unfold JobIdentifier.__init__. by rewrite RecipeIdentifier_init_again. Qed.

Lemma RecipeIdentifier_all_equal (a b : RecipeIdentifier) :
  RecipeIdentifier.all_equal a b ["location_id"; "recipe"; "sex"]
  = bool_decide (a = b).
Proof.
  unfold RecipeIdentifier.all_equal; simpl.
  destruct (decide (a = b)) as [->|Hne].
  - by rewrite !bool_decide_eq_true_2.
  - rewrite (bool_decide_eq_false_2 (a = b)) by done.
    apply not_true_iff_false. rewrite !andb_true_iff, !bool_decide_eq_true.
    unfold RecipeIdentifier.getattr; simpl.
    intros (Hl & Hr & Hs & _). apply Hne.
    apply RecipeIdentifier_eq_intro;
      unfold RecipeIdentifier.location_id, RecipeIdentifier.recipe,
        RecipeIdentifier.sex in *; congruence.
Qed.

(** [==] between two plain recipe identifiers is equality of the fields. *)
Lemma py_eq_RecipeIdentifier (a b : RecipeIdentifier) :
  py_eq (ARecipeIdentifier a) (ARecipeIdentifier b) = inr (bool_decide (a = b)).
Proof.
  unfold py_eq. cbn [type_of]. case_bool_decide; [done|].
  cbn [andb call___eq__]. unfold RecipeIdentifier.__eq__.
  cbn [as_RecipeIdentifier]. by rewrite RecipeIdentifier_all_equal.
Qed.

(** C7. [RecipeIdentifier(location_id, recipe, sex)] with an integer
    [location_id] and a string [recipe] raises the assertion error exactly
    when [sex] is not one of male, female, both or [recipe] is one of
    them; otherwise it returns the identifier with the three fields. *)
Theorem RecipeIdentifier_init_validates
    (location_id : Z) (recipe : string) (sex : pyval) :
  (RecipeIdentifier.__init__ (PyInt location_id) (PyStr recipe) sex
     = inl (AssertionError "")
   ↔ ¬ is_sex_token sex ∨ is_sex_token (PyStr recipe))
  ∧ ((∃ r, RecipeIdentifier.__init__ (PyInt location_id) (PyStr recipe) sex = inr r
           ∧ RecipeIdentifier.location_id r = location_id
           ∧ RecipeIdentifier.recipe r = recipe
           ∧ PyStr (RecipeIdentifier.sex r) = sex)
     ↔ is_sex_token sex ∧ ¬ is_sex_token (PyStr recipe)).
Proof.
  unfold RecipeIdentifier.__init__; simpl.
  destruct sex as [|z|s].
  - assert (¬ is_sex_token PyNone) as Hn by (by intros [H|[H|H]]).
    split; split; try tauto. by intros (r & Hr & _).
  - assert (¬ is_sex_token (PyInt z)) as Hn by (by intros [H|[H|H]]).
    split; split; try tauto. by intros (r & Hr & _).
  - destruct (decide _) as [ok|bad].
    + pose proof (proj1 (sex_and_recipe_ok_spec _ _) ok) as [Hs Hr].
      split; split.
      * done.
      * intros [?|?]; done.
      * done.
      * intros _. eexists. split; [done|]. done.
    + rewrite sex_and_recipe_ok_spec in bad.
      split; split.
      * intros _. destruct (decide (is_sex_token (PyStr recipe))) as [?|?];
          [by right|left]. intros ?. apply bad. done.
      * done.
      * intros (r & Hr & _). done.
      * intros ?. done.
Qed.

Lemma append_empty_r (s : string) : s +:+ "" = s.
Proof.
  induction s as [|a s IH]; [done|].
  change (String a (s +:+ "") = String a s). by rewrite IH.
Qed.

(** C8, as the code has it.  The string rendering of a job identifier
    joins, with underscores, the location, the recipe, the sex and the
    name, in this order. *)
Theorem JobIdentifier_str_fields (j : JobIdentifier) :
  JobIdentifier.__str__ j
  = String.concat "_" [pretty (JobIdentifier.location_id j);
                       JobIdentifier.recipe j;
                       JobIdentifier.sex j;
                       JobIdentifier.name j].
Proof.
  unfold JobIdentifier.__str__, fstring. cbn [foldr pyval_str String.concat].
  by rewrite append_empty_r.
Qed.

(** C10, as the code has it.  When a plain recipe identifier [r] and a job
    identifier [j] agree on location, recipe and sex, the method
    [RecipeIdentifier.__eq__(r, j)] called directly returns true, but the
    expressions [r == j] and [j == r] both raise [AttributeError]: [j]'s
    class derives from [r]'s, so both run [JobIdentifier.__eq__] on [j],
    which reads [r.name].  Neither returns false. *)
Theorem identifier_equality_across_classes (r : RecipeIdentifier) (j : JobIdentifier) :
  JobIdentifier.location_id j = RecipeIdentifier.location_id r →
  JobIdentifier.recipe j = RecipeIdentifier.recipe r →
  JobIdentifier.sex j = RecipeIdentifier.sex r →
  RecipeIdentifier.__eq__ r (AJobIdentifier j) = inr true
  ∧ (∃ msg, py_eq (ARecipeIdentifier r) (AJobIdentifier j) = inl (AttributeError msg))
  ∧ (∃ msg, py_eq (AJobIdentifier j) (ARecipeIdentifier r) = inl (AttributeError msg)).
Proof.
  intros Hl Hr Hs.
  assert (_base j = r) as Hb by (by apply RecipeIdentifier_eq_intro).
  assert (JobIdentifier.__eq__ j (ARecipeIdentifier r)
          = inl (AttributeError "'RecipeIdentifier' object has no attribute 'name'"))
    as Hj.
  { unfold JobIdentifier.__eq__, RecipeIdentifier.__eq__.
    cbn [as_RecipeIdentifier]. rewrite RecipeIdentifier_all_equal.
    by rewrite bool_decide_eq_true_2. }
  split; [|split].
  - unfold RecipeIdentifier.__eq__. cbn [as_RecipeIdentifier].
    rewrite RecipeIdentifier_all_equal. by rewrite bool_decide_eq_true_2.
  - eexists. unfold py_eq. cbn [type_of issubclass].
    rewrite bool_decide_eq_true_2 by done. cbn [andb call___eq__]. exact Hj.
  - eexists. unfold py_eq. cbn [type_of issubclass].
    rewrite andb_false_r. cbn [call___eq__]. exact Hj.
Qed.

(** ** Jobs: readiness and mock runs *)

Section job_properties.
Context {Settings Entity ExecutionContext World : Type}.
Context `{!EntityOps Entity ExecutionContext World}.

Implicit Types (self : CascadeJob.t Settings Entity).
Implicit Types (s : CascadeJob.state Entity ExecutionContext World).
Implicit Types (c : ExecutionContext).

Lemma entity_missing_loop c (l : list (string * Entity)) acc s :
  foldM (λ not_ready item,
           validation ← CascadeJob.call_validate item.2 c;
           mret (match validation with
                 | Some v => <[item.1 := v]> not_ready
                 | None => not_ready
                 end)) acc l s
  = (inr (foldl (record_missing c (CascadeJob.world s)) acc l),
     CascadeJob.mkState (CascadeJob.world s)
       (CascadeJob.calls s ++ ((λ item, CascadeJob.Validate item.2 c) <$> l))).
Proof.
  revert acc s. induction l as [|item l IH]; intros acc s.
  - simpl. unfold mret, M_ret. destruct s; simpl. by rewrite app_nil_r.
  - cbn [foldM]. erewrite run_bind_inr; last first.
    { erewrite run_bind_inr; [|reflexivity]. reflexivity. }
    rewrite IH. cbn [CascadeJob.world CascadeJob.calls foldl fmap list_fmap].
    by rewrite <- app_assoc.
Qed.

Lemma foldl_record_missing c w (l : list (string * Entity)) acc name :
  NoDup l.*1 →
  foldl (record_missing c w) acc l !! name
  = match (list_to_map l : gmap string Entity) !! name ≫= λ e, validate e c w with
    | Some v => Some v
    | None => acc !! name
    end.
Proof.
  revert acc. induction l as [|[k e] l IH]; intros acc Hnd.
  - cbn [foldl list_to_map foldr]. by rewrite lookup_empty.
  - inversion_clear Hnd as [|?? Hk Hl]. cbn [foldl list_to_map foldr uncurry].
    rewrite IH by done. unfold record_missing. cbn [fst snd].
    destruct (decide (k = name)) as [->|Hne].
    + rewrite lookup_insert_eq.
      rewrite (not_elem_of_list_to_map_1 l name) by done. simpl.
      destruct (validate e c w); [by rewrite lookup_insert_eq|done].
    + rewrite lookup_insert_ne by done.
      destruct (_ ≫= _); [done|].
      destruct (validate e c w); [by rewrite lookup_insert_ne|done].
Qed.

Lemma entity_missing_run c (m : gmap string Entity) s :
  CascadeJob.entity_missing c m s
  = (inr (omap (λ e, validate e c (CascadeJob.world s)) m),
     CascadeJob.mkState (CascadeJob.world s)
       (CascadeJob.calls s
          ++ ((λ item, CascadeJob.Validate item.2 c) <$> map_to_list m))).
Proof.
  unfold CascadeJob.entity_missing. rewrite entity_missing_loop.
  do 2 f_equal. apply map_eq. intros name.
  rewrite foldl_record_missing by apply NoDup_fst_map_to_list.
  rewrite list_to_map_to_list, lookup_omap, lookup_empty.
  by destruct (_ ≫= _).
Qed.

Lemma mock_loop c (l : list Entity) s :
  foldM (λ _ output, CascadeJob.call_mock output c) tt l s
  = (inr tt,
     CascadeJob.mkState (foldl (λ w e, mock e c w) (CascadeJob.world s) l)
       (CascadeJob.calls s ++ ((λ e, CascadeJob.Mock e c) <$> l))).
Proof.
  revert s. induction l as [|e l IH]; intros s.
  - simpl. unfold mret, M_ret. destruct s; simpl. by rewrite app_nil_r.
  - cbn [foldM]. erewrite run_bind_inr; [|reflexivity].
    rewrite IH. cbn [CascadeJob.world CascadeJob.calls foldl fmap list_fmap].
    by rewrite <- app_assoc.
Qed.

(** C5.  When [input_missing] returns a non-empty dictionary, a checked
    mock run raises [RuntimeError] carrying that dictionary, which maps
    each declared input that fails [validate] to the reason given; the
    world is as before and no [mock] call was made. *)
Theorem mock_run_inputs_missing self c s missing s1 :
  CascadeJob.input_missing self c s = (inr missing, s1) →
  missing ≠ ∅ →
  CascadeJob.mock_run self c true s = (inl (RuntimeError (Mapping missing)), s1)
  ∧ (∀ name reason,
       missing !! name = Some reason
       ↔ ∃ entity, CascadeJob.inputs self !! name = Some entity
                   ∧ validate entity c (CascadeJob.world s) = Some reason)
  ∧ CascadeJob.world s1 = CascadeJob.world s
  ∧ ∃ made, CascadeJob.calls s1 = (CascadeJob.calls s ++ made)%list
            ∧ ∀ entity c', CascadeJob.Mock entity c' ∉ made.
Proof.
  intros Hrun Hne. split; [|split; [|split]].
  - unfold CascadeJob.mock_run.
    erewrite run_bind_inl; [done|].
    erewrite run_bind_inr; [|exact Hrun].
    by rewrite bool_decide_eq_true_2.
  - unfold CascadeJob.input_missing in Hrun.
    rewrite entity_missing_run in Hrun. inversion Hrun; subst. clear Hrun.
    intros name reason. rewrite lookup_omap.
    destruct (CascadeJob.inputs self !! name) as [e|]; simpl.
    + split; [by eauto|]. by intros (? & [= <-] & ?).
    + split; [done|]. by intros (? & ? & _).
  - unfold CascadeJob.input_missing in Hrun.
    rewrite entity_missing_run in Hrun. by inversion Hrun.
  - unfold CascadeJob.input_missing in Hrun.
    rewrite entity_missing_run in Hrun. inversion Hrun; subst. clear Hrun.
    eexists. split; [reflexivity|].
    intros entity c' [item [? _]]%list_elem_of_fmap. done.
Qed.

(** C6.  An unchecked mock run returns normally whatever the inputs
    are, calls no [validate], and calls [mock] once for each declared
    output: the calls it makes are one per entry of [outputs], every
    name of [outputs] taken once. *)
Theorem mock_run_unchecked self c s :
  ∃ s1 order,
    CascadeJob.mock_run self c false s = (inr tt, s1)
    ∧ NoDup order.*1
    ∧ (∀ name entity,
         (name, entity) ∈ order ↔ CascadeJob.outputs self !! name = Some entity)
    ∧ CascadeJob.calls s1
      = (CascadeJob.calls s ++ ((λ item, CascadeJob.Mock item.2 c) <$> order))%list
    ∧ CascadeJob.world s1
      = foldl (λ w item, mock item.2 c w) (CascadeJob.world s) order.
Proof.
  eexists _, (map_to_list (CascadeJob.outputs self)).
  split; [|split; [|split; [|split]]].
  - unfold CascadeJob.mock_run.
    erewrite run_bind_inr; [|reflexivity]. apply mock_loop.
  - apply NoDup_fst_map_to_list.
  - intros name entity. apply elem_of_map_to_list.
  - cbn [CascadeJob.calls]. by rewrite <- list_fmap_compose.
  - cbn [CascadeJob.world]. generalize (CascadeJob.world s).
    induction (map_to_list _) as [|item l IH]; intros w; [done|].
    simpl. apply IH.
Qed.
End job_properties.

(** ** Ordered dictionaries *)

Section odict_properties.
Context {K V : Type} `{EqDecision K}.
Implicit Types (d : list (K * V)).

Lemma dict_get_set_eq k v d : dict_get k (dict_set k v d) = Some v.
Proof.
  induction d as [|[k' v'] d IH]; simpl.
  - by rewrite decide_True.
  - destruct (decide (k = k')) as [->|Hne]; simpl.
    + by rewrite decide_True.
    + by rewrite decide_False.
Qed.

Lemma dict_get_set_ne k k' v d :
  k ≠ k' → dict_get k' (dict_set k v d) = dict_get k' d.
Proof.
  intros Hne. induction d as [|[k0 v0] d IH]; simpl.
  - by rewrite decide_False.
  - destruct (decide (k = k0)) as [->|Hk]; simpl.
    + by rewrite !decide_False.
    + destruct (decide (k' = k0)); [done|apply IH].
Qed.

Lemma dict_get_Some k v d : NoDup d.*1 → (k, v) ∈ d → dict_get k d = Some v.
Proof.
  induction d as [|[k0 v0] d IH]; intros Hnd Hin; [by inversion Hin|].
  inversion_clear Hnd as [|?? Hk Hd]. simpl.
  apply elem_of_cons in Hin as [[= -> ->]|Hin].
  - by rewrite decide_True.
  - rewrite decide_False; [by apply IH|].
    intros ->. apply Hk. apply list_elem_of_fmap. by exists (k0, v).
Qed.
End odict_properties.

(** ** Graph operations *)

Section nx_properties.
Context {N A G : Type} `{EqDecision N}.
Implicit Types (g : nx.DiGraph N A G) (e : N * N).

Lemma add_node_edges n a g : nx.edges (nx.add_node n a g) = nx.edges g.
Proof. done. Qed.

Lemma add_node_graph n a g : nx.graph (nx.add_node n a g) = nx.graph g.
Proof. done. Qed.

Lemma add_nodes_from_edges l g : nx.edges (nx.add_nodes_from l g) = nx.edges g.
Proof.
  revert g. induction l as [|p l IH]; intros g; [done|].
  unfold nx.add_nodes_from in *. simpl. by rewrite IH.
Qed.

Lemma add_nodes_from_graph l g : nx.graph (nx.add_nodes_from l g) = nx.graph g.
Proof.
  revert g. induction l as [|p l IH]; intros g; [done|].
  unfold nx.add_nodes_from in *. simpl. by rewrite IH.
Qed.

Lemma add_edge_graph u v g : nx.graph (nx.add_edge u v g) = nx.graph g.
Proof.
  unfold nx.add_edge. cbn [nx.graph].
  by destruct (dict_contains u _), (dict_contains v _).
Qed.

Lemma add_edge_edges u v g :
  nx.edges (nx.add_edge u v g)
  = if bool_decide ((u, v) ∈ nx.edges g) then nx.edges g
    else nx.edges g ++ [(u, v)].
Proof.
  unfold nx.add_edge, nx.edges. cbn [nx._succ].
  by destruct (dict_contains u _), (dict_contains v _).
Qed.

Lemma elem_of_add_edge e u v g :
  e ∈ nx.edges (nx.add_edge u v g) ↔ e ∈ nx.edges g ∨ e = (u, v).
Proof.
  rewrite add_edge_edges. case_bool_decide as Hin.
  - split; [by left|]. by intros [?| ->].
  - rewrite elem_of_app, list_elem_of_singleton. done.
Qed.

Lemma NoDup_add_edge u v g :
  NoDup (nx.edges g) → NoDup (nx.edges (nx.add_edge u v g)).
Proof.
  intros Hnd. rewrite add_edge_edges. case_bool_decide as Hin; [done|].
  apply NoDup_app. split; [done|]. split; [|apply NoDup_singleton].
  intros e He ->%list_elem_of_singleton. done.
Qed.

Lemma add_edges_from_graph l g : nx.graph (nx.add_edges_from l g) = nx.graph g.
Proof.
  revert g. induction l as [|p l IH]; intros g; [done|].
  unfold nx.add_edges_from in *. simpl. by rewrite IH, add_edge_graph.
Qed.

Lemma elem_of_add_edges_from e l g :
  e ∈ nx.edges (nx.add_edges_from l g) ↔ e ∈ nx.edges g ∨ e ∈ l.
Proof.
  revert g. induction l as [|[u v] l IH]; intros g.
  - split; [by left|]. intros [?|Hin]; [done|by inversion Hin].
  - unfold nx.add_edges_from in *. cbn [foldl]. rewrite IH.
    cbn [fst snd]. rewrite elem_of_add_edge, elem_of_cons. tauto.
Qed.

Lemma NoDup_add_edges_from l g :
  NoDup (nx.edges g) → NoDup (nx.edges (nx.add_edges_from l g)).
Proof.
  revert g. induction l as [|[u v] l IH]; intros g Hnd; [done|].
  unfold nx.add_edges_from in *. cbn [foldl]. apply IH.
  by apply NoDup_add_edge.
Qed.

Lemma add_edges_from_edges_ext l g g' :
  nx.edges g = nx.edges g' →
  nx.edges (nx.add_edges_from l g) = nx.edges (nx.add_edges_from l g').
Proof.
  revert g g'. induction l as [|[u v] l IH]; intros g g' Hg; [done|].
  unfold nx.add_edges_from in *. cbn [foldl]. apply IH.
  by rewrite !add_edge_edges, Hg.
Qed.

Lemma update_run (r : nx.loc) (f : nx.DiGraph N A G → nx.DiGraph N A G) h :
  nx.update r f h = (inr tt, alter f r h).
Proof. done. Qed.

Lemma read_insert {B} (r : nx.loc) (f : nx.DiGraph N A G → B) g
    (h : gmap nx.loc (nx.DiGraph N A G)) :
  nx.read r f (<[r := g]> h) = (inr (f g), <[r := g]> h).
Proof. unfold nx.read. by rewrite lookup_insert_eq. Qed.

Lemma alter_alter (f f' : nx.DiGraph N A G → nx.DiGraph N A G) r
    (h : gmap nx.loc (nx.DiGraph N A G)) :
  alter f r (alter f' r h) = alter (f ∘ f') r h.
Proof.
  apply map_eq. intros i. destruct (decide (i = r)) as [->|Hne].
  - rewrite !lookup_alter_eq. by destruct (h !! r).
  - by rewrite !lookup_alter_ne.
Qed.
End nx_properties.

(** ** The graph compiler *)

Lemma lookup_removelast {X} (l : list X) (i : nat) :
  removelast l !! i = if decide (S i < length l)%nat then l !! i else None.
Proof.
  revert i. induction l as [|x l IH]; intros i.
  { by destruct (decide _). }
  destruct l as [|y l].
  { destruct (decide _) as [Hlt|]; [simpl in Hlt; lia|done]. }
  change (removelast (x :: y :: l)) with (x :: removelast (y :: l)).
  destruct i as [|i].
  - destruct (decide _) as [|Hge]; [done|simpl in Hge; lia].
  - cbn [lookup list_lookup]. rewrite IH.
    destruct (decide _) as [Hlt|Hge], (decide _) as [Hlt'|Hge'];
      simpl in *; try done; lia.
Qed.

Lemma elem_of_chain {X} (l : list X) (u v : X) :
  (u, v) ∈ zip (removelast l) (tail l) ↔ consecutive l u v.
Proof.
  unfold consecutive. split.
  - intros (i & x & y & Heq & Hx & Hy)%elem_of_lookup_zip_with_1.
    injection Heq as -> ->. exists i.
    rewrite lookup_tail in Hy. rewrite lookup_removelast in Hx.
    destruct (decide _); [done|discriminate].
  - intros (i & Hu & Hv).
    apply (elem_of_lookup_zip_with_2 pair _ _ u v (u, v) i).
    + rewrite lookup_removelast.
      apply lookup_lt_Some in Hv as Hlt. by rewrite decide_True.
    + by rewrite lookup_tail.
Qed.

Lemma NoDup_join_lookup {X} (ls : list (list X)) (i j : nat) l1 l2 x :
  NoDup (mjoin ls) → ls !! i = Some l1 → ls !! j = Some l2 →
  x ∈ l1 → x ∈ l2 → i = j.
Proof.
  revert i j. induction ls as [|l ls IH]; intros i j Hnd Hi Hj H1 H2;
    [by rewrite lookup_nil in Hi|].
  cbn [mjoin list_join] in Hnd. apply NoDup_app in Hnd as (_ & Hdisj & Hnd).
  assert (∀ k l', ls !! k = Some l' → x ∈ l' → x ∈ mjoin ls) as Hin.
  { intros k l' Hk Hx. apply list_elem_of_join. exists l'.
    split; [done|]. by eapply list_elem_of_lookup_2. }
  destruct i as [|i], j as [|j]; simpl in Hi, Hj.
  - done.
  - injection Hi as ->. destruct (Hdisj x H1). by eapply Hin.
  - injection Hj as ->. destruct (Hdisj x H2). by eapply Hin.
  - f_equal. by apply IH.
Qed.

Section compiler_properties.
Context {Settings Entity ExecutionContext : Type}.

Implicit Types (rg : RecipeGraph.t Settings Entity).
Implicit Types (node : RecipeIdentifier * list (CascadeJob.t Settings Entity)).
Implicit Types (g : JobGraph Settings Entity ExecutionContext).
Implicit Types (h : Heap Settings Entity ExecutionContext).
Implicit Types (re : list (RecipeIdentifier * gmap string JobIdentifier)).

Lemma job_identifier_total (job : CascadeJob.t Settings Entity) :
  CascadeJob.job_identifier job = inr (identifier job).
Proof. apply JobIdentifier_init_total. Qed.

Lemma compile_recipe_run rg r re node h :
  node.2 ≠ [] →
  compile_recipe rg r re node h
  = (inr (note_boundary re node), alter (add_recipe rg node) r h).
Proof.
  destruct node as [copy_identifier job_list]. cbn [fst snd]. intros Hne.
  unfold compile_recipe. cbn [fst snd].
  rewrite bool_decide_eq_false_2; last first.
  { destruct job_list; [done|simpl; lia]. }
  rewrite (mapE_total _ identifier) by (intros; apply job_identifier_total).
  unfold note_boundary, add_recipe, identifiers. cbn [fst snd].
  assert (∃ first, head (identifier <$> job_list) = Some first) as [first Hfirst].
  { destruct job_list; [done|by eexists]. }
  assert (∃ final, last (identifier <$> job_list) = Some final) as [final Hfinal].
  { apply last_is_Some. by destruct job_list. }
  rewrite Hfirst, Hfinal.
  unfold mbind, M_bind, lift, nx.update, modify. cbn beta iota.
  unfold first_item, last_item. rewrite Hfirst, Hfinal. cbn beta iota.
  rewrite py_eq_RecipeIdentifier. cbn beta iota.
  destruct (bool_decide _); unfold mret, M_ret; cbn beta iota;
    by rewrite !alter_alter.
Qed.

Lemma foldM_app {S X Y} (f : Y → X → M S Y) (acc : Y) (l1 l2 : list X) (s : S) :
  foldM f acc (l1 ++ l2) s
  = (acc' ← foldM f acc l1; foldM f acc' l2) s.
Proof.
  revert acc s. induction l1 as [|x l1 IH]; intros acc s; [done|].
  cbn [foldM app]. unfold mbind, M_bind in *.
  destruct (f acc x s) as [[e|acc'] s']; [done|]. apply IH.
Qed.

(** The loop over recipes that all have jobs. *)
Lemma compile_loop_run rg r (l : list (RecipeIdentifier * list (CascadeJob.t Settings Entity))) re h :
  Forall (λ node, node.2 ≠ []) l →
  foldM (compile_recipe rg r) re l h
  = (inr (foldl note_boundary re l),
     alter (add_recipes rg l) r h).
Proof.
  intros Hl. revert re h. induction Hl as [|node l Hnode Hl IH]; intros re h.
  - cbn [foldM foldl]. unfold mret, M_ret. f_equal.
    symmetry. by apply alter_id.
  - cbn [foldM foldl]. erewrite run_bind_inr; [|by apply compile_recipe_run].
    rewrite IH. by rewrite alter_alter.
Qed.

(** The loop stops at the first recipe without jobs. *)
Lemma compile_loop_stops rg r pre copy_identifier post re h :
  Forall (λ node, node.2 ≠ []) pre →
  foldM (compile_recipe rg r) re (pre ++ (copy_identifier, []) :: post) h
  = (inl (no_sub_jobs copy_identifier),
     alter (add_recipes rg pre) r h).
Proof.
  intros Hpre. rewrite foldM_app.
  erewrite run_bind_inr; [|by apply compile_loop_run].
  cbn [foldM]. erewrite run_bind_inl; [done|]. done.
Qed.

Lemma add_recipe_edges rg node g :
  nx.edges (add_recipe rg node g)
  = nx.edges (nx.add_edges_from
                (zip (removelast (identifiers node.2)) (tail (identifiers node.2)))
                g).
Proof.
  unfold add_recipe.
  destruct (head _); [destruct (bool_decide _)|];
    apply add_edges_from_edges_ext, add_nodes_from_edges.
Qed.

Lemma elem_of_add_recipe_edges rg node g u v :
  (u, v) ∈ nx.edges (add_recipe rg node g)
  ↔ (u, v) ∈ nx.edges g ∨ consecutive (identifiers node.2) u v.
Proof. by rewrite add_recipe_edges, elem_of_add_edges_from, elem_of_chain. Qed.

Lemma elem_of_add_recipes_edges rg l g u v :
  (u, v) ∈ nx.edges (add_recipes rg l g)
  ↔ (u, v) ∈ nx.edges g
    ∨ ∃ node, node ∈ l ∧ consecutive (identifiers node.2) u v.
Proof.
  revert g. induction l as [|node l IH]; intros g.
  - split; [by left|]. intros [?|(? & Hin & _)]; [done|by inversion Hin].
  - unfold add_recipes in *. cbn [foldl].
    rewrite IH, elem_of_add_recipe_edges. split.
    + intros [[?|?]|(n & ? & ?)]; [by left|right..].
      * exists node. split; [left|done].
      * exists n. split; [by right|done].
    + intros [?|(n & [->|?]%elem_of_cons & ?)]; [tauto|tauto|].
      right. by exists n.
Qed.

Lemma NoDup_add_recipes_edges rg l g :
  NoDup (nx.edges g) → NoDup (nx.edges (add_recipes rg l g)).
Proof.
  revert g. induction l as [|node l IH]; intros g Hnd; [done|].
  unfold add_recipes in *. cbn [foldl]. apply IH.
  rewrite add_recipe_edges. by apply NoDup_add_edges_from.
Qed.

Lemma add_recipe_graph rg node g :
  nx.graph (add_recipe rg node g)
  = match head (identifiers node.2) with
    | Some first =>
        if bool_decide (node.1 = RecipeGraph.graph_root rg)
        then <["root" := Root first]> (nx.graph g)
        else nx.graph g
    | None => nx.graph g
    end.
Proof.
  unfold add_recipe.
  destruct (head _); [destruct (bool_decide _)|]; cbn [nx.graph nx.graph_setitem];
    by rewrite add_edges_from_graph, add_nodes_from_graph.
Qed.

(** Recipes other than the root leave the root attribute alone. *)
Lemma add_recipes_graph_other rg l g :
  RecipeGraph.graph_root rg ∉ l.*1 →
  nx.graph (add_recipes rg l g) = nx.graph g.
Proof.
  revert g. induction l as [|node l IH]; intros g Hnot; [done|].
  unfold add_recipes in *. cbn [foldl].
  rewrite IH by (intros ?; apply Hnot; by right).
  rewrite add_recipe_graph. destruct (head _); [|done].
  rewrite bool_decide_eq_false_2; [done|].
  intros Heq. apply Hnot. rewrite <- Heq. by left.
Qed.

(** The root recipe sets the root attribute to its first job. *)
Lemma add_recipes_graph_root rg l g job_list first :
  NoDup l.*1 →
  (RecipeGraph.graph_root rg, job_list) ∈ l →
  head (identifiers job_list) = Some first →
  nx.graph (add_recipes rg l g) !! "root" = Some (Root first).
Proof.
  revert g. induction l as [|node l IH]; intros g Hnd Hin Hfirst;
    [by inversion Hin|].
  inversion_clear Hnd as [|?? Hnode Hl].
  unfold add_recipes in *. cbn [foldl].
  apply elem_of_cons in Hin as [<-|Hin].
  - fold (add_recipes rg l (add_recipe rg (RecipeGraph.graph_root rg, job_list) g)).
    rewrite add_recipes_graph_other by done.
    rewrite add_recipe_graph. cbn [fst snd]. rewrite Hfirst.
    rewrite bool_decide_eq_true_2 by done. apply lookup_insert_eq.
  - by apply IH.
Qed.

(** *** The boundary dictionary *)

Lemma note_boundary_other re
    (l : list (RecipeIdentifier * list (CascadeJob.t Settings Entity))) rid :
  rid ∉ l.*1 →
  dict_get rid (foldl note_boundary re l) = dict_get rid re.
Proof.
  revert re. induction l as [|node l IH]; intros re Hnot; [done|].
  cbn [foldl]. rewrite IH by (intros ?; apply Hnot; by right).
  unfold note_boundary. destruct (head _); [|done]. destruct (last _); [|done].
  apply dict_get_set_ne. intros Heq. apply Hnot. rewrite <- Heq. by left.
Qed.

Lemma note_boundary_lookup re
    (l : list (RecipeIdentifier * list (CascadeJob.t Settings Entity)))
    rid job_list :
  NoDup l.*1 →
  (rid, job_list) ∈ l →
  job_list ≠ [] →
  ∃ first final,
    head (identifiers job_list) = Some first
    ∧ last (identifiers job_list) = Some final
    ∧ dict_get rid (foldl note_boundary re l)
      = Some {[ "input" := first; "output" := final ]}.
Proof.
  revert re. induction l as [|node l IH]; intros re Hnd Hin Hne;
    [by inversion Hin|].
  inversion_clear Hnd as [|?? Hnode Hl]. cbn [foldl].
  apply elem_of_cons in Hin as [<-|Hin]; [|by apply IH].
  assert (∃ first, head (identifiers job_list) = Some first) as [first Hfirst].
  { destruct job_list; [done|by eexists]. }
  assert (∃ final, last (identifiers job_list) = Some final) as [final Hfinal].
  { apply last_is_Some. by destruct job_list. }
  exists first, final. split; [done|]. split; [done|].
  rewrite note_boundary_other by done.
  unfold note_boundary. cbn [fst snd]. rewrite Hfirst, Hfinal.
  apply dict_get_set_eq.
Qed.

Lemma mapE_related {X Y} (f : X → exn + Y) (P : X → Y → Prop) (l : list X) :
  (∀ x, x ∈ l → ∃ y, f x = inr y ∧ P x y) →
  ∃ l', mapE f l = inr l' ∧ Forall2 P l l'.
Proof.
  induction l as [|x l IH]; intros Hf; [by exists []|].
  destruct (Hf x) as (y & Hy & HP); [by left|].
  destruct IH as (l' & Hl' & HF); [intros; apply Hf; by right|].
  exists (y :: l'). simpl. rewrite Hy, Hl'. split; [done|by constructor].
Qed.

(** With the recipe graph closed under its edges, every cross edge is
    found in the boundary dictionary. *)
Lemma cross_edge_total rg e :
  NoDup (RecipeGraph.nodes rg).*1 →
  Forall (λ node, node.2 ≠ []) (RecipeGraph.nodes rg) →
  e.1 ∈ (RecipeGraph.nodes rg).*1 → e.2 ∈ (RecipeGraph.nodes rg).*1 →
  ∃ y, cross_edge (foldl note_boundary [] (RecipeGraph.nodes rg)) e = inr y
       ∧ crosses rg e y.
Proof.
  intros Hnd Hall (na & Ha & Hina)%list_elem_of_fmap
    (nb & Hb & Hinb)%list_elem_of_fmap.
  destruct na as [a source_jobs], nb as [b dest_jobs]. cbn [fst snd] in *.
  subst a b.
  assert (source_jobs ≠ []) as Hsrc
    by (by apply (proj1 (Forall_forall _ _) Hall _ Hina)).
  assert (dest_jobs ≠ []) as Hdst
    by (by apply (proj1 (Forall_forall _ _) Hall _ Hinb)).
  destruct (note_boundary_lookup [] _ _ _ Hnd Hina Hsrc)
    as (fa & la & Hfa & Hla & Hga).
  destruct (note_boundary_lookup [] _ _ _ Hnd Hinb Hdst)
    as (fb & lb & Hfb & Hlb & Hgb).
  exists (la, fb). split.
  - unfold cross_edge, getitem. rewrite Hga, Hgb.
    rewrite lookup_insert_ne by done. rewrite lookup_singleton_eq.
    by rewrite lookup_insert_eq.
  - by exists source_jobs, dest_jobs.
Qed.

Lemma crosses_functional rg e y y' :
  NoDup (RecipeGraph.nodes rg).*1 → crosses rg e y → crosses rg e y' → y = y'.
Proof.
  intros Hnd (s & d & Hs & Hd & Hl & Hh) (s' & d' & Hs' & Hd' & Hl' & Hh').
  pose proof (dict_get_Some _ _ _ Hnd Hs) as E1.
  pose proof (dict_get_Some _ _ _ Hnd Hs') as E2.
  pose proof (dict_get_Some _ _ _ Hnd Hd) as E3.
  pose proof (dict_get_Some _ _ _ Hnd Hd') as E4.
  assert (s = s') as <- by congruence. assert (d = d') as <- by congruence.
  destruct y, y'; simpl in *. congruence.
Qed.

(** *** A whole compilation *)

Lemma compile_run rg h :
  RecipeGraph.is_graph rg →
  Forall (λ node, node.2 ≠ []) (RecipeGraph.nodes rg) →
  RecipeGraph.graph_root rg ∈ (RecipeGraph.nodes rg).*1 →
  ∃ cross,
    recipe_graph_to_job_graph rg h
    = (inr (fresh (dom h)),
       <[fresh (dom h) :=
           nx.add_edges_from cross
             (add_recipes rg (RecipeGraph.nodes rg) nx.empty)]> h)
    ∧ ∀ y, y ∈ cross ↔ ∃ e, e ∈ RecipeGraph.edges rg ∧ crosses rg e y.
Proof.
  intros [Hnd Hclosed] Hall Hroot.
  destruct (mapE_related
              (cross_edge (foldl note_boundary [] (RecipeGraph.nodes rg)))
              (crosses rg) (RecipeGraph.edges rg)) as (cross & Hcross & HF).
  { intros e He. destruct (Hclosed e He). by apply cross_edge_total. }
  exists cross. split.
  - unfold recipe_graph_to_job_graph.
    erewrite run_bind_inr; [|reflexivity].
    erewrite run_bind_inr; [|by apply compile_loop_run].
    rewrite alter_insert_eq.
    apply list_elem_of_fmap in Hroot as ([rid job_list] & Hrid & Hin).
    cbn [fst] in Hrid. subst rid.
    assert (∃ first, head (identifiers job_list) = Some first) as [first Hfirst].
    { pose proof (proj1 (Forall_forall _ _) Hall _ Hin) as Hne.
      destruct job_list; [done|by eexists]. }
    erewrite run_bind_inr; [|apply read_insert].
    cbn beta. rewrite (add_recipes_graph_root _ _ _ _ _ Hnd Hin Hfirst).
    rewrite bool_decide_eq_true_2 by (by eexists).
    erewrite run_bind_inr; [|reflexivity].
    erewrite run_bind_inr; [|unfold lift; by rewrite Hcross].
    erewrite run_bind_inr; [|reflexivity].
    unfold mret, M_ret. by rewrite alter_insert_eq.
  - intros y. split.
    + intros Hy. clear Hcross. induction HF as [|e y' l l' HP HF IH];
        [by inversion Hy|].
      apply elem_of_cons in Hy as [->|Hy].
      * exists e. split; [left|done].
      * destruct IH as (e' & ? & ?); [|done|]. 
        { intros ??. apply Hclosed. by right. }
        exists e'. split; [by right|done].
    + intros (e & He & HP). clear Hcross. induction HF as [|e' y' l l' HP' HF IH];
        [by inversion He|].
      apply elem_of_cons in He as [->|He].
      * rewrite (crosses_functional rg e' y y' Hnd HP HP'). left.
      * right. apply IH; [|done]. intros ??. apply Hclosed. by right.
Qed.

Lemma distinct_same_node rg node node' x :
  distinct_job_identifiers rg →
  node ∈ RecipeGraph.nodes rg → node' ∈ RecipeGraph.nodes rg →
  x ∈ identifiers node.2 → x ∈ identifiers node'.2 → node = node'.
Proof.
  intros Hd [i Hi]%list_elem_of_lookup [j Hj]%list_elem_of_lookup Hx Hx'.
  assert (i = j) as ->; [|congruence].
  apply (NoDup_join_lookup _ i j (identifiers node.2) (identifiers node'.2)
           x Hd); [| |done..].
  - by rewrite list_lookup_fmap, Hi.
  - by rewrite list_lookup_fmap, Hj.
Qed.

(** C1.  For a recipe graph whose recipes all have jobs and whose root
    attribute names one of its nodes, the compiler returns normally a
    new graph object whose [root] attribute is the job identifier of
    the first job of the root recipe's job list. *)
Theorem compiled_graph_root rg h :
  RecipeGraph.is_graph rg →
  Forall (λ node, node.2 ≠ []) (RecipeGraph.nodes rg) →
  RecipeGraph.graph_root rg ∈ (RecipeGraph.nodes rg).*1 →
  ∃ job_graph g job_list first first_id,
    recipe_graph_to_job_graph rg h = (inr job_graph, <[job_graph := g]> h)
    ∧ h !! job_graph = None
    ∧ (RecipeGraph.graph_root rg, job_list) ∈ RecipeGraph.nodes rg
    ∧ head job_list = Some first
    ∧ CascadeJob.job_identifier first = inr first_id
    ∧ nx.graph g !! "root" = Some (Root first_id).
Proof.
  intros Hg Hall Hroot.
  destruct (compile_run rg h Hg Hall Hroot) as (cross & Hrun & _).
  destruct Hg as [Hnd _].
  apply list_elem_of_fmap in Hroot as ([rid job_list] & Hrid & Hin).
  cbn [fst] in Hrid. subst rid.
  pose proof (proj1 (Forall_forall _ _) Hall _ Hin) as Hne.
  destruct job_list as [|first rest]; [done|].
  eexists _, _, (first :: rest), first, (identifier first).
  split; [exact Hrun|]. split; [|split; [done|split; [done|split]]].
  - apply not_elem_of_dom, is_fresh.
  - apply job_identifier_total.
  - rewrite add_edges_from_graph.
    by apply (add_recipes_graph_root _ _ _ (first :: rest)).
Qed.

(** C2.  For the same recipe graphs, the edges of the compiled graph
    are, each once: the pairs of consecutive jobs of every recipe's job
    list, and for every recipe edge the pair (last job of the source,
    first job of the destination); there is no other edge.  When job
    identifiers are distinct over the whole graph and no recipe
    depends on itself, the edges between the jobs of one recipe are
    its consecutive pairs only. *)
Theorem compiled_graph_edges rg h :
  RecipeGraph.is_graph rg →
  Forall (λ node, node.2 ≠ []) (RecipeGraph.nodes rg) →
  RecipeGraph.graph_root rg ∈ (RecipeGraph.nodes rg).*1 →
  ∃ job_graph g,
    recipe_graph_to_job_graph rg h = (inr job_graph, <[job_graph := g]> h)
    ∧ NoDup (nx.edges g)
    ∧ (∀ u v,
         (u, v) ∈ nx.edges g
         ↔ (∃ node, node ∈ RecipeGraph.nodes rg
                    ∧ consecutive (identifiers node.2) u v)
           ∨ (∃ e, e ∈ RecipeGraph.edges rg ∧ crosses rg e (u, v)))
    ∧ (distinct_job_identifiers rg → no_self_loop rg →
       ∀ node u v,
         node ∈ RecipeGraph.nodes rg →
         u ∈ identifiers node.2 → v ∈ identifiers node.2 →
         (u, v) ∈ nx.edges g → consecutive (identifiers node.2) u v).
Proof.
  intros Hg Hall Hroot.
  destruct (compile_run rg h Hg Hall Hroot) as (cross & Hrun & Hcross).
  eexists _, _. split; [exact Hrun|].
  assert (∀ u v,
    (u, v) ∈ nx.edges (nx.add_edges_from cross
               (add_recipes (ExecutionContext:=ExecutionContext) rg
                  (RecipeGraph.nodes rg) nx.empty))
    ↔ (∃ node, node ∈ RecipeGraph.nodes rg
               ∧ consecutive (identifiers node.2) u v)
      ∨ (∃ e, e ∈ RecipeGraph.edges rg ∧ crosses rg e (u, v))) as Hchar.
  { intros u v. rewrite elem_of_add_edges_from, elem_of_add_recipes_edges, Hcross.
    split; [|tauto]. intros [[Hempty|?]|?]; [by inversion Hempty|tauto..]. }
  split; [|split; [exact Hchar|]].
  - apply NoDup_add_edges_from, NoDup_add_recipes_edges. constructor.
  - intros Hdistinct Hloop node u v Hnode Hu Hv [Hchain|Hx]%Hchar.
    + destruct Hchain as (node' & Hnode' & Hcons).
      assert (node = node') as ->; [|done].
      destruct Hcons as (i & Hi & _).
      eapply (distinct_same_node rg _ _ u); try done.
      by eapply list_elem_of_lookup_2.
    + destruct Hx as ([a b] & He & (s & d & Hs & Hd & Hl & Hh)).
      cbn [fst snd] in *. destruct (Hloop _ He). cbn [fst snd].
      assert (node = (a, s)) as Ha.
      { eapply (distinct_same_node rg _ _ u); try done.
        cbn [snd]. by apply last_Some_elem_of. }
      assert (node = (b, d)) as Hb.
      { eapply (distinct_same_node rg _ _ v); try done.
        cbn [snd]. destruct (identifiers d); [done|].
        injection Hh as ->. left. }
      congruence.
Qed.

(** C3, as the code has it.  When some recipe has no jobs, the compiler
    raises [RuntimeError] naming the first such recipe in iteration
    order and returns no graph.  The check on a recipe comes before
    that recipe's jobs and edges are added and before any edge between
    recipes; the chains of the recipes met earlier are already in the
    graph under construction, which is left behind. *)
Theorem compile_recipe_without_jobs rg h :
  (∃ node, node ∈ RecipeGraph.nodes rg ∧ node.2 = []) →
  ∃ pre copy_identifier post abandoned,
    RecipeGraph.nodes rg = pre ++ (copy_identifier, []) :: post
    ∧ Forall (λ node, node.2 ≠ []) pre
    ∧ recipe_graph_to_job_graph rg h
      = (inl (no_sub_jobs copy_identifier), <[fresh (dom h) := abandoned]> h)
    ∧ h !! fresh (dom h) = None
    ∧ ∀ u v,
        (u, v) ∈ nx.edges abandoned
        ↔ ∃ node, node ∈ pre ∧ consecutive (identifiers node.2) u v.
Proof.
  intros Hbad.
  assert (∃ pre copy_identifier post,
            RecipeGraph.nodes rg = pre ++ (copy_identifier, []) :: post
            ∧ Forall (λ node, node.2 ≠ []) pre) as (pre & cid & post & Hsplit & Hpre).
  { induction (RecipeGraph.nodes rg) as [|[rid job_list] l IH].
    - destruct Hbad as (? & Hin & _). by inversion Hin.
    - destruct job_list as [|job rest].
      + by exists [], rid, l.
      + destruct IH as (pre & cid & post & -> & Hpre).
        { destruct Hbad as (node & [->|Hin]%elem_of_cons & Hnil); [done|].
          by exists node. }
        exists ((rid, job :: rest) :: pre), cid, post.
        split; [done|]. by constructor. }
  exists pre, cid, post, (add_recipes rg pre nx.empty).
  split; [done|]. split; [done|]. split; [|split].
  - unfold recipe_graph_to_job_graph.
    erewrite run_bind_inr; [|reflexivity].
    erewrite run_bind_inl; [done|].
    rewrite Hsplit, compile_loop_stops by done.
    by rewrite alter_insert_eq.
  - apply not_elem_of_dom, is_fresh.
  - intros u v. rewrite elem_of_add_recipes_edges.
    split; [|tauto]. intros [Hempty|?]; [by inversion Hempty|done].
Qed.
End compiler_properties.

(** ** Sub-graph selection *)

Section selection_properties.
Context {Locations Settings Entity ExecutionContext : Type}.
Variable job_graph_from_settings :
  Locations → Settings → gmap string pyval →
  M (Heap Settings Entity ExecutionContext) nx.loc.

Implicit Types (self : Application.t Locations Settings ExecutionContext).
Implicit Types (args : gmap string pyval).
Implicit Types (h : Heap Settings Entity ExecutionContext).
Implicit Types (g : JobGraph Settings Entity ExecutionContext).



Lemma sub_graph_to_run_run self args h job_graph h1 g :
  Application.graph_of_jobs job_graph_from_settings self args h
    = (inr job_graph, h1) →
  h1 !! job_graph = Some g →
  Application.sub_graph_to_run job_graph_from_settings self args h
  = (inr (nx.mkSubGraph job_graph
            (filter (λ n, n ∈ nx.nodes g)
               (foldl (Application.narrow args) (nx.nodes g)
                  ["location_id"; "recipe"; "sex"; "name"]))),
     <[job_graph :=
         nx.graph_setitem "execution_context"
           (Context_ (Application.execution_context self)) g]> h1).
Proof.
  intros Hjobs Hg. unfold Application.sub_graph_to_run.
  erewrite run_bind_inr; [|exact Hjobs].
  assert (∀ {B} (f : _ → B), nx.read job_graph f h1 = (inr (f g), h1)) as Hread.
  { intros B f. unfold nx.read. by rewrite Hg. }
  erewrite run_bind_inr; [|apply Hread].
  erewrite run_bind_inr; last first.
  { unfold nx.subgraph. erewrite run_bind_inr; [|apply Hread]. reflexivity. }
  erewrite run_bind_inr; [|reflexivity].
  unfold mret, M_ret. f_equal. cbn [nx._graph].
  apply map_eq. intros i. destruct (decide (i = job_graph)) as [->|Hne].
  - by rewrite lookup_alter_eq, lookup_insert_eq, Hg.
  - by rewrite lookup_alter_ne, lookup_insert_ne.
Qed.


(** C9, as the code has it.  Selection leaves the nodes, their
    annotations and the edges of the parent graph as they were, and
    every other graph object untouched; the view shares the parent's
    dictionary of graph attributes, so the parent's attributes are as
    before except that [execution_context] now holds the application's
    execution context. *)
Theorem sub_graph_shares_graph_attributes self args h job_graph h1 g :
  Application.graph_of_jobs job_graph_from_settings self args h
    = (inr job_graph, h1) →
  h1 !! job_graph = Some g →
  ∃ sub_graph g',
    Application.sub_graph_to_run job_graph_from_settings self args h
      = (inr sub_graph, <[job_graph := g']> h1)
    ∧ nx._node g' = nx._node g
    ∧ nx.edges g' = nx.edges g
    ∧ nx.graph g'
      = <["execution_context" := Context_ (Application.execution_context self)]>
          (nx.graph g)
    ∧ nx.view_graph (<[job_graph := g']> h1) sub_graph = nx.graph g'.
Proof.
  intros Hjobs Hg. eexists _, _.
  split; [by apply (sub_graph_to_run_run self args h job_graph h1 g)|].
  split; [done|]. split; [done|]. split; [done|].
  unfold nx.view_graph. cbn [nx._graph]. by rewrite lookup_insert_eq.
Qed.
End selection_properties.

(** ** The properties on the concrete run *)

Section on_the_scenario.
Import Scenario.

Lemma two_recipes_is_graph : RecipeGraph.is_graph two_recipes.
Proof.
  split.
  - apply (bool_decide_unpack _). vm_compute. exact I.
  - intros e He. apply list_elem_of_singleton in He. subst e.
    split; apply (bool_decide_unpack _); vm_compute; exact I.
Defined.

Lemma two_recipes_have_jobs :
  Forall (λ node, node.2 ≠ []) (RecipeGraph.nodes two_recipes).
Proof. repeat constructor; discriminate. Defined.

Lemma two_recipes_root :
  RecipeGraph.graph_root two_recipes ∈ (RecipeGraph.nodes two_recipes).*1.
Proof. apply (bool_decide_unpack _). vm_compute. exact I. Defined.
End on_the_scenario.

Lemma compiled_graph_root_witness :
  ∃ job_graph g job_list first first_id,
    recipe_graph_to_job_graph Scenario.two_recipes (∅ : Heap unit Scenario.Entity unit)
      = (inr job_graph, <[job_graph := g]> ∅)
    ∧ (∅ : Heap unit Scenario.Entity unit) !! job_graph = None
    ∧ (RecipeGraph.graph_root Scenario.two_recipes, job_list)
        ∈ RecipeGraph.nodes Scenario.two_recipes
    ∧ head job_list = Some first
    ∧ CascadeJob.job_identifier first = inr first_id
    ∧ nx.graph g !! "root" = Some (Root first_id).
Proof.
  apply (compiled_graph_root Scenario.two_recipes ∅).
  - exact two_recipes_is_graph.
  - exact two_recipes_have_jobs.
  - exact two_recipes_root.
Defined.

Section more_on_the_scenario.
Import Scenario.

Lemma two_recipes_distinct : distinct_job_identifiers two_recipes.
Proof. apply (bool_decide_unpack _). vm_compute. exact I. Defined.

Lemma two_recipes_no_self_loop : no_self_loop two_recipes.
Proof.
  intros e He. apply list_elem_of_singleton in He. subst e.
  cbn [fst snd]. intros H. discriminate (f_equal _location_id H).
Defined.

Lemma second_recipe_has_no_jobs :
  ∃ node, node ∈ RecipeGraph.nodes second_recipe_empty ∧ node.2 = [].
Proof. exists (fit_2, []). split; [|reflexivity]. right. left. Defined.

(** The heap after the provider has built the job graph. *)
Lemma provider_run :
  Application.graph_of_jobs provider app location_2 ∅
  = (inr 1%positive, {[ 1%positive := compiled ]}).
Proof. vm_compute. reflexivity. Defined.

Lemma provider_graph :
  ({[ 1%positive := compiled ]} : Heap unit Entity unit) !! 1%positive
  = Some compiled.
Proof. vm_compute. reflexivity. Defined.

(** Selecting location 2 keeps C, D and the edge between them. *)
Example select_location_2 :
  let out := Application.sub_graph_to_run provider app location_2 ∅ in
  match out.1 with
  | inr view =>
      nx.view_nodes out.2 view = [id_C; id_D]
      ∧ nx.view_edges out.2 view = [(id_C, id_D)]
  | inl _ => False
  end.
Proof. vm_compute. split; reflexivity. Qed.
End more_on_the_scenario.

Lemma compiled_graph_edges_witness :
  ∃ job_graph g,
    recipe_graph_to_job_graph Scenario.two_recipes (∅ : Heap unit Scenario.Entity unit)
      = (inr job_graph, <[job_graph := g]> ∅)
    ∧ NoDup (nx.edges g)
    ∧ (∀ u v,
         (u, v) ∈ nx.edges g
         ↔ (∃ node, node ∈ RecipeGraph.nodes Scenario.two_recipes
                    ∧ consecutive (identifiers node.2) u v)
           ∨ (∃ e, e ∈ RecipeGraph.edges Scenario.two_recipes
                   ∧ crosses Scenario.two_recipes e (u, v)))
    ∧ (∀ node u v,
         node ∈ RecipeGraph.nodes Scenario.two_recipes →
         u ∈ identifiers node.2 → v ∈ identifiers node.2 →
         (u, v) ∈ nx.edges g → consecutive (identifiers node.2) u v).
Proof.
  destruct (compiled_graph_edges (ExecutionContext:=unit) Scenario.two_recipes ∅
              two_recipes_is_graph two_recipes_have_jobs two_recipes_root)
    as (job_graph & g & Hrun & Hnd & Hchar & Hwithin).
  exists job_graph, g. split; [exact Hrun|]. split; [exact Hnd|].
  split; [exact Hchar|].
  exact (Hwithin two_recipes_distinct two_recipes_no_self_loop).
Defined.

Lemma compile_recipe_without_jobs_witness :
  ∃ pre copy_identifier post abandoned,
    RecipeGraph.nodes Scenario.second_recipe_empty
      = pre ++ (copy_identifier, []) :: post
    ∧ Forall (λ node, node.2 ≠ []) pre
    ∧ recipe_graph_to_job_graph Scenario.second_recipe_empty
        (∅ : Heap unit Scenario.Entity unit)
      = (inl (no_sub_jobs copy_identifier), <[fresh (dom (∅ : Heap unit Scenario.Entity unit)) := abandoned]> ∅)
    ∧ (∅ : Heap unit Scenario.Entity unit) !! fresh (dom (∅ : Heap unit Scenario.Entity unit)) = None
    ∧ ∀ u v,
        (u, v) ∈ nx.edges abandoned
        ↔ ∃ node, node ∈ pre ∧ consecutive (identifiers node.2) u v.
Proof.
  apply (compile_recipe_without_jobs (ExecutionContext:=unit)
           Scenario.second_recipe_empty ∅).
  exact second_recipe_has_no_jobs.
Defined.

(** C3, as stated, on two recipes of which the second has no jobs: the
    compiler does raise, but the graph under construction already holds
    the edge between the two jobs of the first recipe. *)
Lemma edges_exist_before_the_check :
  ¬ ∃ msg h',
      recipe_graph_to_job_graph Scenario.second_recipe_empty
        (∅ : Heap unit Scenario.Entity unit)
      = (inl (RuntimeError msg), h')
      ∧ ∀ r g, h' !! r = Some g → nx.edges g = [].
Proof.
  intros (msg & h' & Hrun & Hnone).
  apply (f_equal snd) in Hrun. cbn [snd] in Hrun. subst h'.
  assert (nx.edges <$>
            (recipe_graph_to_job_graph Scenario.second_recipe_empty
               (∅ : Heap unit Scenario.Entity unit)).2 !! 1%positive
          = Some [(Scenario.id_A, Scenario.id_B)]) as Hedges
    by (vm_compute; reflexivity).
  destruct (_ !! 1%positive) as [g|] eqn:Hg; [|discriminate].
  injection Hedges as Hedges. rewrite (Hnone _ _ Hg) in Hedges. discriminate.
Qed.


Lemma sub_graph_shares_graph_attributes_witness :
  ∃ sub_graph g',
    Application.sub_graph_to_run Scenario.provider Scenario.app
      Scenario.location_2 ∅
      = (inr sub_graph, <[1%positive := g']> {[ 1%positive := Scenario.compiled ]})
    ∧ nx._node g' = nx._node Scenario.compiled
    ∧ nx.edges g' = nx.edges Scenario.compiled
    ∧ nx.graph g'
      = <["execution_context" := Context_ (Application.execution_context Scenario.app)]>
          (nx.graph Scenario.compiled)
    ∧ nx.view_graph (<[1%positive := g']> {[ 1%positive := Scenario.compiled ]})
        sub_graph = nx.graph g'.
Proof.
  exact (sub_graph_shares_graph_attributes Scenario.provider Scenario.app
           Scenario.location_2 ∅ _ _ _ provider_run provider_graph).
Defined.

(** C9, as stated, on the compiled graph of the two recipes: before the
    selection the graph has no [execution_context] attribute, after it
    the same graph object has one. *)
Lemma sub_graph_changes_parent_attributes :
  ¬ ∀ job_graph h1 g sub_graph h2,
      Application.graph_of_jobs Scenario.provider Scenario.app
        Scenario.location_2 ∅ = (inr job_graph, h1) →
      h1 !! job_graph = Some g →
      Application.sub_graph_to_run Scenario.provider Scenario.app
        Scenario.location_2 ∅ = (inr sub_graph, h2) →
      h2 !! job_graph = Some g.
Proof.
  intros Hclaim.
  pose (out := Application.sub_graph_to_run Scenario.provider Scenario.app
                 Scenario.location_2 ∅).
  assert (∃ sub_graph, out.1 = inr sub_graph) as [sub_graph Hsub]
    by (vm_compute; by eexists).
  specialize (Hclaim 1%positive _ Scenario.compiled sub_graph out.2
                provider_run provider_graph).
  assert (out = (inr sub_graph, out.2)) as Hout
    by (rewrite <- Hsub; by destruct out).
  specialize (Hclaim Hout).
  apply (f_equal (λ o, o ≫= λ g, nx.graph g !! "execution_context")) in Hclaim.
  vm_compute in Hclaim. discriminate.
Qed.

Section mock_runs_on_the_scenario.
Import Scenario.

Lemma mock_run_inputs_missing_witness :
let s := CascadeJob.mkState (∅ : World) [] in
let missing : gmap string string := {[ "db_file" := "file missing" ]} in
let s1 := CascadeJob.mkState (∅ : World) [CascadeJob.Validate "in.db" tt] in
CascadeJob.mock_run fit_job tt true s
  = (inl (RuntimeError (Mapping missing)), s1)
∧ (∀ name reason,
     missing !! name = Some reason
     ↔ ∃ entity, CascadeJob.inputs fit_job !! name = Some entity
                 ∧ validate entity tt (CascadeJob.world s) = Some reason)
∧ CascadeJob.world s1 = CascadeJob.world s
∧ ∃ made, CascadeJob.calls s1 = CascadeJob.calls s ++ made
          ∧ ∀ entity c', CascadeJob.Mock entity c' ∉ made.
Proof.
intros s missing s1.
apply (mock_run_inputs_missing fit_job tt s missing s1).
- vm_compute. reflexivity.
- intros H. apply (f_equal (λ m, m !! "db_file")) in H.
  vm_compute in H. discriminate.
Defined.

(** The unchecked mock run of the same job writes its one output
    although its input is missing. *)
Example mock_run_unchecked_fit_job :
  let out := CascadeJob.mock_run fit_job tt false
               (CascadeJob.mkState (∅ : World) []) in
  out.1 = inr tt
  ∧ CascadeJob.calls out.2 = [CascadeJob.Mock "out.db" tt]
  ∧ "out.db" ∈ CascadeJob.world out.2
  ∧ "in.db" ∉ CascadeJob.world out.2.
Proof.
  split; [by vm_compute|]. split; [by vm_compute|].
  split; apply (bool_decide_unpack _); by vm_compute.
Qed.
End mock_runs_on_the_scenario.

Lemma identifier_equality_across_classes_witness :
  RecipeIdentifier.__eq__ Scenario.fit_1 (AJobIdentifier Scenario.id_A) = inr true
  ∧ (∃ msg, py_eq (ARecipeIdentifier Scenario.fit_1) (AJobIdentifier Scenario.id_A)
            = inl (AttributeError msg))
  ∧ (∃ msg, py_eq (AJobIdentifier Scenario.id_A) (ARecipeIdentifier Scenario.fit_1)
            = inl (AttributeError msg)).
Proof.
  apply (identifier_equality_across_classes Scenario.fit_1 Scenario.id_A);
    reflexivity.
Defined.

(** C10, as stated, on the recipe identifier (1, fit, both) and the job
    identifier of job A of that recipe: the fields agree, and [r == j]
    does not return true. *)
Lemma recipe_eq_job_does_not_return_true :
  JobIdentifier.location_id Scenario.id_A = RecipeIdentifier.location_id Scenario.fit_1
  ∧ JobIdentifier.recipe Scenario.id_A = RecipeIdentifier.recipe Scenario.fit_1
  ∧ JobIdentifier.sex Scenario.id_A = RecipeIdentifier.sex Scenario.fit_1
  ∧ py_eq (ARecipeIdentifier Scenario.fit_1) (AJobIdentifier Scenario.id_A)
    ≠ inr true.
Proof.
  split; [reflexivity|]. split; [reflexivity|]. split; [reflexivity|].
  intros H. vm_compute in H. discriminate.
Qed.

(** C8, as stated, on the job identifier of job A of recipe (1, fit,
    both): the rendering is not location, sex, recipe, name. *)
Lemma str_is_not_location_sex_recipe_name :
  JobIdentifier.__str__ Scenario.id_A
  ≠ String.concat "_" [pretty (JobIdentifier.location_id Scenario.id_A);
                       JobIdentifier.sex Scenario.id_A;
                       JobIdentifier.recipe Scenario.id_A;
                       JobIdentifier.name Scenario.id_A].
Proof. intros H. vm_compute in H. discriminate. Qed.
